(** * hemli: the refresh engine, the secret record and the listing index

    A shallow embedding of [src/model.rs], [src/index.rs] and the command
    handlers [cmd_get] and [cmd_edit] of [src/main.rs].

    Time is a [jiff::Timestamp], modelled as a [Z] count of nanoseconds
    since the Unix epoch, restricted to jiff's representable range.
    [Timestamp::now()] is an explicit [now] argument. *)

From Stdlib Require Import ZArith Lia Ascii String.
From stdpp Require Import base gmap list strings.

Open Scope Z_scope.

(* ------------------------------------------------------------------ *)
(** ** jiff timestamps and durations *)

Module Jiff.

(** Nanoseconds per second. *)
Definition NANOS_PER_SEC : Z := 1000000000.

(** jiff's [Timestamp::MIN] and [Timestamp::MAX] in Unix seconds
    ([-009999-01-02T01:59:59Z] and [9999-12-30T22:00:00.999999999Z]). *)
Definition UNIX_SECONDS_MIN : Z := -377705023201.
Definition UNIX_SECONDS_MAX : Z := 253402207200.

Definition TS_MIN : Z := UNIX_SECONDS_MIN * NANOS_PER_SEC.
Definition TS_MAX : Z := UNIX_SECONDS_MAX * NANOS_PER_SEC + (NANOS_PER_SEC - 1).

(** A [Z] that a [Timestamp] can hold. *)
Definition ts_valid (t : Z) : bool := (TS_MIN <=? t) && (t <=? TS_MAX).

(** The range of Rust's [i64]. *)
Definition I64_MIN : Z := - 2 ^ 63.
Definition I64_MAX : Z := 2 ^ 63 - 1.
Definition i64_valid (x : Z) : bool := (I64_MIN <=? x) && (x <=? I64_MAX).

(** [SignedDuration::from_secs(secs: i64)], in nanoseconds: total, it
    stores [secs] as they are with zero sub-second nanoseconds. *)
Definition from_secs (secs : Z) : Z := secs * NANOS_PER_SEC.

(** [Timestamp::checked_add(SignedDuration)]: [Err] (here [None]) when
    the sum leaves the representable range. *)
Definition checked_add (t d : Z) : option Z :=
  let r := t + d in if ts_valid r then Some r else None.

End Jiff.

(* ------------------------------------------------------------------ *)
(** ** Outcomes: a value, an error of [error.rs], or a panic *)

Inductive HemliError : Type :=
  | NotFound (namespace secret : string)
  | NoSource
  | NoModifications
  | SourceFailed (msg : string)
  | Keyring
  | Serialization
  | Io.

Inductive Res (A : Type) : Type :=
  | ROk (a : A)
  | RErr (e : HemliError)
  | RPanic.
Arguments ROk {A} a.
Arguments RErr {A} e.
Arguments RPanic {A}.

(* ------------------------------------------------------------------ *)
(** ** [src/model.rs] *)

Module Model.

Inductive SourceType : Type := Sh | Cmd.

Record StoredSecret : Type := mkStoredSecret {
  value : string;
  created_at : Z;
  source_command : option string;
  source_type : option SourceType;
  ttl_seconds : option Z;
  expires_at : option Z
}.

(** [StoredSecret::new], with [Timestamp::now()] as [now]. The
    [.unwrap()] on [checked_add] is the [RPanic] outcome. *)
Definition new (now : Z) (value : string) (source_command : option string)
    (source_type : option SourceType) (ttl_seconds : option Z) : Res StoredSecret :=
  let created_at := now in
  let expires_at :=
    match ttl_seconds with
    | Some ttl =>
        match Jiff.checked_add created_at (Jiff.from_secs ttl) with
        | Some e => ROk (Some e)
        | None => RPanic
        end
    | None => ROk None
    end in
  match expires_at with
  | ROk expires_at =>
      ROk (mkStoredSecret value created_at source_command source_type
             ttl_seconds expires_at)
  | RErr e => RErr e
  | RPanic => RPanic
  end.

(** [StoredSecret::is_expired], with [Timestamp::now()] as [now]. *)
Definition is_expired (self : StoredSecret) (now : Z) : bool :=
  match expires_at self with
  | Some exp => exp <? now
  | None => false
  end.

(** Modelled from the spec: [StoredSecret::recalculate_expires_at], which
    [cmd_edit] calls but [model.rs] does not define (spec 4.1
    [recompute_expiry]): recompute [expires_at] as [created_at + ttl_seconds],
    or clear it when [ttl_seconds] is absent. The sum is a [Timestamp], so
    it is computed as [StoredSecret::new] computes it, with [checked_add]
    and a panic when it leaves the representable range. *)
Definition recalculate_expires_at (self : StoredSecret) : Res StoredSecret :=
  match ttl_seconds self with
  | Some ttl =>
      match Jiff.checked_add (created_at self) (Jiff.from_secs ttl) with
      | Some e =>
          ROk (mkStoredSecret (value self) (created_at self) (source_command self)
                 (source_type self) (ttl_seconds self) (Some e))
      | None => RPanic
      end
  | None =>
      ROk (mkStoredSecret (value self) (created_at self) (source_command self)
             (source_type self) (ttl_seconds self) None)
  end.

(** Field updates [stored.f = x]. *)
Definition set_ttl_seconds (s : StoredSecret) (t : option Z) : StoredSecret :=
  mkStoredSecret (value s) (created_at s) (source_command s) (source_type s)
    t (expires_at s).
Definition set_source (s : StoredSecret) (c : string) (st : SourceType) : StoredSecret :=
  mkStoredSecret (value s) (created_at s) (Some c) (Some st)
    (ttl_seconds s) (expires_at s).

(** The record invariant of the spec (section 3). *)
Definition expiry_consistent (s : StoredSecret) : Prop :=
  match ttl_seconds s, expires_at s with
  | Some t, Some e => e = created_at s + Jiff.from_secs t
  | None, None => True
  | _, _ => False
  end.

End Model.

(* ------------------------------------------------------------------ *)
(** ** [src/index.rs] *)

Module Index.

Record IndexEntry : Type := mkIndexEntry {
  namespace : string;
  secret : string;
  created_at : Z
}.

Record SecretIndex : Type := mkSecretIndex { entries : list IndexEntry }.

(** The [find] predicate [e.namespace == namespace && e.secret == secret]. *)
Definition is_pair (ns s : string) (e : IndexEntry) : bool :=
  String.eqb (namespace e) ns && String.eqb (secret e) s.

(** [iter_mut().find(..)]: update the first matching entry in place, or
    [push] a new one at the end when none matches. *)
Fixpoint upsert_entries (es : list IndexEntry) (ns s : string) (t : Z)
    : list IndexEntry :=
  match es with
  | [] => [mkIndexEntry ns s t]
  | e :: es' =>
      if is_pair ns s e then mkIndexEntry (namespace e) (secret e) t :: es'
      else e :: upsert_entries es' ns s t
  end.

Definition upsert_entry (index : SecretIndex) (ns s : string) (t : Z) : SecretIndex :=
  mkSecretIndex (upsert_entries (entries index) ns s t).

(** A sequence of [upsert_entry] calls for one pair, oldest first. *)
Definition upsert_all (index : SecretIndex) (ns s : string) (ts : list Z) : SecretIndex :=
  fold_left (fun i t => upsert_entry i ns s t) ts index.

(** [remove_entry]: [retain] the entries that are not for the pair. *)
Definition remove_entry (index : SecretIndex) (ns s : string) : SecretIndex :=
  mkSecretIndex (List.filter (fun e => negb (is_pair ns s e)) (entries index)).

(** [filter_entries]: the entries of one namespace, or all of them, in
    their order in the index. *)
Definition filter_entries (index : SecretIndex) (ns_opt : option string) : list IndexEntry :=
  match ns_opt with
  | Some ns => List.filter (fun e => String.eqb (namespace e) ns) (entries index)
  | None => entries index
  end.

End Index.

(* ------------------------------------------------------------------ *)
(** ** [src/store.rs] *)

Module Store.

(** [service_name]: [format!("hemli:{namespace}")]. *)
Definition service_name (namespace : string) : string := "hemli:" +:+ namespace.

End Store.

(* ------------------------------------------------------------------ *)
(** ** The world the commands run against *)

(** The OS keyring, keyed by (namespace, name) (the service
    ["hemli:<namespace>"] and the account name), holding the record that
    [store::set_secret] serialised; the index file; the calls made to the
    Source Resolver, oldest first; and what was printed to stdout and stderr. *)
Record World : Type := mkWorld {
  keyring : gmap (string * string) Model.StoredSecret;
  index_file : Index.SecretIndex;
  fetch_log : list (string * Model.SourceType);
  stdout : string;
  stderr : string
}.

Module Engine.
Import Model.

(** A state and error monad over [World], with a panic outcome. *)
Definition M (A : Type) : Type := World -> Res A * World.

Definition ret {A} (a : A) : M A := fun w => (ROk a, w).
Definition raise {A} (e : HemliError) : M A := fun w => (RErr e, w).
Definition lift {A} (r : Res A) : M A := fun w => (r, w).
Definition bind {A B} (m : M A) (k : A -> M B) : M B :=
  fun w =>
    match m w with
    | (ROk a, w') => k a w'
    | (RErr e, w') => (RErr e, w')
    | (RPanic, w') => (RPanic, w')
    end.

Notation "'let!' x := m 'in' k" := (bind m (fun x => k))
  (at level 200, x name, m at level 100, k at level 200).

Section Commands.

(** The Source Resolver [source::fetch_secret]: the trimmed stdout of the
    command ([inl]) or its error ([inr]). *)
Variable fetch : string -> SourceType -> string + HemliError.

(** [source::fetch_secret], recording each invocation. *)
Definition fetch_secret (command : string) (st : SourceType) : M string :=
  fun w =>
    let w' := mkWorld (keyring w) (index_file w) (fetch_log w ++ [(command, st)])
                (stdout w) (stderr w) in
    match fetch command st with
    | inl v => (ROk v, w')
    | inr e => (RErr e, w')
    end.

(** [store::get_secret] and [store::set_secret]. *)
Definition get_secret (ns s : string) : M (option StoredSecret) :=
  fun w => (ROk (keyring w !! (ns, s)), w).

Definition set_secret (ns s : string) (r : StoredSecret) : M unit :=
  fun w => (ROk tt, mkWorld (<[(ns, s) := r]> (keyring w)) (index_file w)
                      (fetch_log w) (stdout w) (stderr w)).

(** [index::load_index] and [index::save_index] on [index_path()]. *)
Definition load_index : M Index.SecretIndex := fun w => (ROk (index_file w), w).

Definition save_index (i : Index.SecretIndex) : M unit :=
  fun w => (ROk tt, mkWorld (keyring w) i (fetch_log w) (stdout w) (stderr w)).

(** [print!] and [eprintln!]. *)
Definition print (v : string) : M unit :=
  fun w => (ROk tt, mkWorld (keyring w) (index_file w) (fetch_log w)
                      (stdout w +:+ v) (stderr w)).

Definition eprintln (v : string) : M unit :=
  fun w => (ROk tt, mkWorld (keyring w) (index_file w) (fetch_log w)
                      (stdout w) (stderr w +:+ v +:+ String (Ascii.ascii_of_nat 10) EmptyString)).

(** [cmd_get]. [now_check] is the [Timestamp::now()] read by
    [is_expired], [now_new] the one read by [StoredSecret::new] after the
    fetch. *)
Definition cmd_get (namespace secret : string) (force_refresh no_refresh no_store : bool)
    (ttl : option Z) (source_sh source_cmd : option string) (now_check now_new : Z)
    : M unit :=
  let! existing := get_secret namespace secret in
  if no_refresh then
    match existing with
    | Some entry => print (value entry)
    | None => raise (NotFound namespace secret)
    end
  else
  let needs_refresh :=
    force_refresh || bool_decide (existing = None)
    || match existing with Some e => is_expired e now_check | None => false end in
  if negb needs_refresh then
    match existing with
    | Some entry => print (value entry)
    | None => lift RPanic (* [existing.unwrap()], unreachable *)
    end
  else
  let source :=
    match source_sh with
    | Some sh => ROk (sh, Sh)
    | None =>
        match source_cmd with
        | Some cmd => ROk (cmd, Cmd)
        | None =>
            match existing with
            | Some entry =>
                match source_command entry, source_type entry with
                | Some cmd, Some st => ROk (cmd, st)
                | _, _ => RErr NoSource
                end
            | None => RErr NoSource
            end
        end
    end in
  let! src := lift source in
  let! v := fetch_secret (fst src) (snd src) in
  let effective_ttl :=
    match ttl with
    | Some t => Some t
    | None => match existing with Some e => ttl_seconds e | None => None end
    end in
  let! stored := lift (new now_new v (Some (fst src)) (Some (snd src)) effective_ttl) in
  let! _ :=
    if negb no_store then
      let! _ := set_secret namespace secret stored in
      let! idx := load_index in
      save_index (Index.upsert_entry idx namespace secret (Model.created_at stored))
    else ret tt in
  print v.

(** [cmd_edit]. *)
Definition cmd_edit (namespace secret : string) (ttl : option Z) (clear_ttl : bool)
    (source_sh source_cmd : option string) : M unit :=
  if bool_decide (ttl = None) && negb clear_ttl && bool_decide (source_sh = None)
     && bool_decide (source_cmd = None)
  then raise NoModifications
  else
  let! existing := get_secret namespace secret in
  let! stored :=
    match existing with
    | Some st => ret st
    | None => raise (NotFound namespace secret)
    end in
  let! stored :=
    if clear_ttl then lift (recalculate_expires_at (set_ttl_seconds stored None))
    else match ttl with
         | Some t => lift (recalculate_expires_at (set_ttl_seconds stored (Some t)))
         | None => ret stored
         end in
  let stored :=
    match source_sh with
    | Some sh => set_source stored sh Sh
    | None =>
        match source_cmd with
        | Some cmd => set_source stored cmd Cmd
        | None => stored
        end
    end in
  let! _ := set_secret namespace secret stored in
  eprintln ("Updated secret '" +:+ secret +:+ "' in namespace '" +:+ namespace +:+ "'").

(** [store::delete_secret]: removing an absent entry ([NoEntry]) is [Ok]. *)
Definition delete_secret (ns s : string) : M unit :=
  fun w => (ROk tt, mkWorld (delete (ns, s) (keyring w)) (index_file w)
                      (fetch_log w) (stdout w) (stderr w)).

(** [cmd_delete]. *)
Definition cmd_delete (namespace secret : string) : M unit :=
  let! _ := delete_secret namespace secret in
  let! idx := load_index in
  let! _ := save_index (Index.remove_entry idx namespace secret) in
  eprintln ("Deleted secret '" +:+ secret +:+ "' from namespace '" +:+ namespace +:+ "'").

End Commands.
End Engine.

(* ------------------------------------------------------------------ *)
(** ** [src/source.rs]

    Strings are byte strings here. [char::is_whitespace], used by
    [str::trim] and [str::split_whitespace], is Unicode's White_Space; its
    ASCII members are the bytes 9 to 13 and 32, and no byte of a multi-byte
    UTF-8 character is one of them, so the model below is exact for inputs
    whose non-ASCII characters are not Unicode whitespace. *)

Module Source.
Import Model.

Definition is_whitespace (c : ascii) : bool :=
  let n := Ascii.nat_of_ascii c in ((9 <=? n) && (n <=? 13))%nat || (n =? 32)%nat.

Fixpoint trim_start (l : list ascii) : list ascii :=
  match l with
  | c :: l' => if is_whitespace c then trim_start l' else l
  | [] => []
  end.

Definition trim_list (l : list ascii) : list ascii := rev (trim_start (rev (trim_start l))).

(** [str::trim]. *)
Definition trim (s : string) : string :=
  string_of_list_ascii (trim_list (list_ascii_of_string s)).

(** [str::split_whitespace]: [cur] is the current token, reversed. *)
Fixpoint split_ws (cur : list ascii) (l : list ascii) : list (list ascii) :=
  match l with
  | [] => match cur with [] => [] | _ => [rev cur] end
  | c :: l' =>
      if is_whitespace c then
        match cur with
        | [] => split_ws [] l'
        | _ => rev cur :: split_ws [] l'
        end
      else split_ws (c :: cur) l'
  end.

Definition split_whitespace (s : string) : list string :=
  map string_of_list_ascii (split_ws [] (list_ascii_of_string s)).

(** What [Command::output()] yields: whether the exit status is a success,
    and the captured stdout and stderr (read through [from_utf8_lossy]). *)
Record Output : Type := mkOutput {
  success : bool;
  out : string;
  err : string
}.

Section Fetch.

(** Spawning [program] with [args] and waiting for it: [None] when the
    spawn fails with an [io::Error]. *)
Variable run : string -> list string -> option Output.
(** The [Display] of the exit status. *)
Variable show_status : Output -> string.

(** [fetch_secret], together with the processes it spawns. *)
Definition fetch_secret (command : string) (source_type : SourceType)
    : Res string * list (string * list string) :=
  let spawn :=
    match source_type with
    | Sh => Some ("sh", ["-c"; command])
    | Cmd =>
        match split_whitespace command with
        | [] => None
        | p :: args => Some (p, args)
        end
    end in
  match spawn with
  | None => (RErr (SourceFailed "empty command"), [])
  | Some (p, args) =>
      match run p args with
      | None => (RErr Io, [(p, args)])
      | Some o =>
          if negb (success o) then
            (RErr (SourceFailed ("command exited with " +:+ show_status o +:+ ": "
                                 +:+ trim (err o))), [(p, args)])
          else (ROk (trim (out o)), [(p, args)])
      end
  end.

End Fetch.
End Source.

(* ------------------------------------------------------------------ *)
(** ** Concrete runs *)

Module Runs.
Import Model Engine.

Definition w0 : World := mkWorld ∅ (Index.mkSecretIndex []) [] "" "".
Definition echo_fetch (c : string) (st : SourceType) : string + HemliError := inl "hello".

Example new_3600 :
  new 0 "v" None None (Some 3600) = ROk (mkStoredSecret "v" 0 None None (Some 3600)
                                           (Some (3600 * Jiff.NANOS_PER_SEC))).
Proof. reflexivity. Qed.

Example get_fresh :
  let '(r, w) := cmd_get echo_fetch "ns" "s" false false false (Some 60) (Some "echo hello")
                   None 5 7 w0 in
  r = ROk tt /\ stdout w = "hello" /\ fetch_log w = [("echo hello", Sh)]
  /\ keyring w !! ("ns", "s")
     = Some (mkStoredSecret "hello" 7 (Some "echo hello") (Some Sh) (Some 60)
               (Some (7 + 60 * Jiff.NANOS_PER_SEC)))
  /\ Index.entries (index_file w) = [Index.mkIndexEntry "ns" "s" 7].
Proof. vm_compute. repeat split. Qed.

Example edit_empty :
  fst (cmd_edit "ns" "s" (Some 5) false None None w0) = RErr (NotFound "ns" "s").
Proof. reflexivity. Qed.

End Runs.

(* ------------------------------------------------------------------ *)
(** ** Shared lemmas *)

Module Facts.
Import Model.

Lemma new_ok now v c st ttl r :
  new now v c st ttl = ROk r ->
  value r = v /\ created_at r = now /\ source_command r = c /\ source_type r = st
  /\ ttl_seconds r = ttl /\ expiry_consistent r.
Proof.
  unfold new, Jiff.checked_add, expiry_consistent.
  destruct ttl as [t|]; [destruct (Jiff.ts_valid _) eqn:Hv|];
    intros H; inversion H; subst; simpl; repeat split.
Qed.

Lemma recalculate_ok s r :
  recalculate_expires_at s = ROk r ->
  value r = value s /\ created_at r = created_at s /\ source_command r = source_command s
  /\ source_type r = source_type s /\ ttl_seconds r = ttl_seconds s /\ expiry_consistent r.
Proof.
  unfold recalculate_expires_at, Jiff.checked_add, expiry_consistent.
  destruct (ttl_seconds s) as [t|] eqn:Ht; [destruct (Jiff.ts_valid _)|];
    intros H; inversion H; subst; simpl; rewrite ?Ht; repeat split.
Qed.

End Facts.

(* ------------------------------------------------------------------ *)
(** ** Claims on the secret record *)

Module RecordClaims.
Import Model.

(** C4: [is_expired] is [false] when [expires_at] is absent, and otherwise
    holds exactly when [now] is strictly after [expires_at]; for a record
    whose [expires_at] is [created_at + ttl_seconds] with [ttl_seconds = t],
    it is [false] at [created_at + t] and [true] one second later. *)
Theorem is_expired_contract (r : StoredSecret) (now t : Z) :
  (expires_at r = None -> is_expired r now = false)
  /\ (forall e, expires_at r = Some e -> (is_expired r now = true <-> now > e))
  /\ (ttl_seconds r = Some t -> expiry_consistent r ->
      is_expired r (created_at r + Jiff.from_secs t) = false
      /\ is_expired r (created_at r + Jiff.from_secs (t + 1)) = true).
Proof.
  unfold is_expired, expiry_consistent, Jiff.from_secs, Jiff.NANOS_PER_SEC.
  split; [intros ->; reflexivity|split].
  - intros e ->. rewrite Z.ltb_lt. lia.
  - intros Ht Hc. rewrite Ht in Hc. destruct (expires_at r) as [e|]; [|contradiction].
    subst e. split; [apply Z.ltb_ge | apply Z.ltb_lt]; lia.
Qed.

Lemma is_expired_contract_witness :
  let r := mkStoredSecret "v" 10 None None (Some 60) (Some (10 + Jiff.from_secs 60)) in
  ttl_seconds r = Some 60 /\ expiry_consistent r
  /\ is_expired r (created_at r + Jiff.from_secs 60) = false
  /\ is_expired r (created_at r + Jiff.from_secs (60 + 1)) = true.
Proof.
  intros r. assert (Ht : ttl_seconds r = Some 60) by reflexivity.
  assert (Hc : expiry_consistent r) by reflexivity.
  split; [exact Ht|split; [exact Hc|]].
  exact (proj2 (proj2 (is_expired_contract r 0 60)) Ht Hc).
Defined.

(** C10: [StoredSecret::new] is partial in its [ttl_seconds]: at every
    representable [created_at] some [i64] ttl (here [i64::MAX]) makes
    [checked_add] fail and the [unwrap] panic, while every ttl whose sum
    stays in the representable range (and an absent ttl) returns normally. *)
Theorem new_panics_out_of_range (now : Z) :
  Jiff.ts_valid now = true ->
  (exists ttl, Jiff.i64_valid ttl = true
     /\ forall v c st, new now v c st (Some ttl) = RPanic)
  /\ (forall v c st ttl, Jiff.ts_valid (now + Jiff.from_secs ttl) = true ->
        exists r, new now v c st (Some ttl) = ROk r)
  /\ (forall v c st, exists r, new now v c st None = ROk r).
Proof.
  intros Hnow. split; [|split].
  - exists Jiff.I64_MAX. split; [reflexivity|]. intros v c st.
    unfold new, Jiff.checked_add.
    replace (Jiff.ts_valid (now + Jiff.from_secs Jiff.I64_MAX)) with false; [reflexivity|].
    unfold Jiff.ts_valid in *. apply andb_prop in Hnow as [H1 H2].
    apply Z.leb_le in H1. apply Z.leb_le in H2.
    unfold Jiff.TS_MIN, Jiff.TS_MAX, Jiff.from_secs, Jiff.I64_MAX, Jiff.NANOS_PER_SEC,
      Jiff.UNIX_SECONDS_MIN, Jiff.UNIX_SECONDS_MAX in *.
    symmetry. apply andb_false_iff. right. apply Z.leb_gt. lia.
  - intros v c st ttl Hv. unfold new, Jiff.checked_add. rewrite Hv. eauto.
  - intros v c st. unfold new. eauto.
Qed.

Lemma new_panics_out_of_range_witness :
  Jiff.ts_valid 0 = true /\
  (exists ttl, Jiff.i64_valid ttl = true /\ forall v c st, new 0 v c st (Some ttl) = RPanic).
Proof.
  assert (H : Jiff.ts_valid 0 = true) by reflexivity.
  split; [exact H|]. exact (proj1 (new_panics_out_of_range 0 H)).
Defined.

End RecordClaims.

(* ------------------------------------------------------------------ *)
(** ** Claims on the listing index *)

Module IndexClaims.
Import Index.

Lemma is_pair_new ns s t : is_pair ns s (mkIndexEntry ns s t) = true.
Proof. unfold is_pair. simpl. rewrite !String.eqb_refl. reflexivity. Qed.

Lemma is_pair_eq ns s e : is_pair ns s e = true -> namespace e = ns /\ secret e = s.
Proof.
  unfold is_pair. intros H. apply andb_prop in H as [H1 H2].
  apply String.eqb_eq in H1. apply String.eqb_eq in H2. auto.
Qed.

(** One [upsert_entry] on entries with at most one entry for the pair. *)
Lemma upsert_entries_step (es : list IndexEntry) ns s t :
  (length (List.filter (is_pair ns s) es) <= 1)%nat ->
  List.filter (is_pair ns s) (upsert_entries es ns s t) = [mkIndexEntry ns s t]
  /\ List.filter (fun e => negb (is_pair ns s e)) (upsert_entries es ns s t)
     = List.filter (fun e => negb (is_pair ns s e)) es.
Proof.
  induction es as [|e es IH]; intros Hle.
  - cbn -[is_pair]. rewrite is_pair_new. auto.
  - cbn [upsert_entries]. destruct (is_pair ns s e) eqn:He.
    + pose proof He as Hs. apply is_pair_eq in Hs as [<- <-].
      cbn [List.filter length] in *. rewrite He in Hle. cbn [length] in Hle.
      rewrite is_pair_new. cbn [negb]. rewrite He.
      destruct (List.filter (is_pair _ _) es) eqn:Hf; [auto|cbn [length] in Hle; lia].
    + cbn [List.filter] in *. rewrite He in *. cbn [negb].
      destruct (IH Hle) as [H1 H2]. rewrite H1, H2. auto.
Qed.

(** C9: starting from an index with at most one entry for
    [(namespace, name)], any non-empty sequence of [upsert_entry] calls for
    that pair leaves exactly one entry for it, carrying the timestamp of
    the last call, and leaves the entries of every other pair as they were
    (same entries, same order). *)
Theorem upsert_sequence_single_entry (index : SecretIndex) (ns s : string)
    (ts : list Z) (tl : Z) :
  (length (List.filter (is_pair ns s) (entries index)) <= 1)%nat ->
  List.filter (is_pair ns s) (entries (upsert_all index ns s (ts ++ [tl])))
    = [mkIndexEntry ns s tl]
  /\ List.filter (fun e => negb (is_pair ns s e)) (entries (upsert_all index ns s (ts ++ [tl])))
     = List.filter (fun e => negb (is_pair ns s e)) (entries index).
Proof.
  unfold upsert_all. revert index.
  induction ts as [|t ts IH]; intros index Hle; simpl.
  - apply upsert_entries_step. exact Hle.
  - destruct (upsert_entries_step (entries index) ns s t Hle) as [H1 H2].
    destruct (IH (upsert_entry index ns s t)) as [H3 H4].
    + unfold upsert_entry. simpl. rewrite H1. simpl. lia.
    + split; [exact H3|]. rewrite H4. exact H2.
Qed.

Lemma upsert_sequence_single_entry_witness :
  let idx := mkSecretIndex [mkIndexEntry "a" "x" 1; mkIndexEntry "ns" "s" 2] in
  (length (List.filter (is_pair "ns" "s") (entries idx)) <= 1)%nat
  /\ List.filter (is_pair "ns" "s") (entries (upsert_all idx "ns" "s" ([5; 6] ++ [9])))
     = [mkIndexEntry "ns" "s" 9].
Proof.
  intros idx. assert (H : (length (List.filter (is_pair "ns" "s") (entries idx)) <= 1)%nat)
    by (vm_compute; lia).
  split; [exact H|]. exact (proj1 (upsert_sequence_single_entry idx "ns" "s" [5; 6] 9 H)).
Defined.

End IndexClaims.

Module GetClaims.
Import Model Engine.

(** Unfold the monad and the effects of [cmd_get] and [cmd_edit]. *)
Ltac run_m :=
  unfold bind, ret, raise, lift, get_secret, set_secret, load_index, save_index,
    print, eprintln, fetch_secret in *;
  cbn -[new is_expired recalculate_expires_at set_ttl_seconds set_source] in *.

(** C2: when a get needs a refresh, the Source Resolver is called once,
    with the shell-line override if given, else the direct-args override,
    else the existing record's remembered [source_command] and
    [source_type]; when none of these is available the get fails with
    [NoSource] and leaves the world, the resolver's call log included,
    unchanged. *)
Theorem source_precedence fetch ns s fr nst ttl sh cmd t1 t2 (w : World) :
  (fr = true \/ keyring w !! (ns, s) = None
   \/ exists e, keyring w !! (ns, s) = Some e /\ is_expired e t1 = true) ->
  let out := cmd_get fetch ns s fr false nst ttl sh cmd t1 t2 w in
  (forall x, sh = Some x -> fetch_log (snd out) = fetch_log w ++ [(x, Sh)])
  /\ (forall x, sh = None -> cmd = Some x -> fetch_log (snd out) = fetch_log w ++ [(x, Cmd)])
  /\ (forall e c st, sh = None -> cmd = None -> keyring w !! (ns, s) = Some e ->
        source_command e = Some c -> source_type e = Some st ->
        fetch_log (snd out) = fetch_log w ++ [(c, st)])
  /\ (sh = None -> cmd = None ->
      (forall e, keyring w !! (ns, s) = Some e -> source_command e = None \/ source_type e = None) ->
      out = (RErr NoSource, w)).
Proof.
  intros Hneed out. subst out. unfold cmd_get. run_m.
  assert (Hb : (fr || bool_decide (keyring w !! (ns, s) = None)
     || match keyring w !! (ns, s) with Some e => is_expired e t1 | None => false end) = true).
  { destruct Hneed as [->|[->|[e [-> ->]]]]; [reflexivity| |].
    { rewrite bool_decide_true by reflexivity. rewrite orb_true_r. reflexivity. }
    rewrite orb_true_r. reflexivity. }
  rewrite Hb. cbn. clear Hb Hneed.
  split; [|split; [|split]].
  - intros x ->. cbn.
    destruct (fetch _ _); cbn; [|reflexivity].
    destruct (new _ _ _ _ _); cbn; [destruct nst; reflexivity|reflexivity|reflexivity].
  - intros x -> ->. cbn.
    destruct (fetch _ _); cbn; [|reflexivity].
    destruct (new _ _ _ _ _); cbn; [destruct nst; reflexivity|reflexivity|reflexivity].
  - intros e c st -> -> He Hc Hs. rewrite He, Hc, Hs. cbn.
    destruct (fetch _ _); cbn; [|reflexivity].
    destruct (new _ _ _ _ _); cbn; [destruct nst; reflexivity|reflexivity|reflexivity].
  - intros -> -> Hno. destruct (keyring w !! (ns, s)) as [e|]; [|reflexivity].
    destruct (Hno e eq_refl) as [->| ->]; [reflexivity|].
    destruct (source_command e); reflexivity.
Qed.

Lemma source_precedence_witness :
  let w := Runs.w0 in
  (false = true \/ keyring w !! ("ns", "s") = None
   \/ exists e, keyring w !! ("ns", "s") = Some e /\ is_expired e 0 = true)
  /\ fetch_log (snd (cmd_get Runs.echo_fetch "ns" "s" false false false None
                       (Some "a") (Some "b") 0 0 w)) = fetch_log w ++ [("a", Sh)].
Proof.
  intros w. assert (H : false = true \/ keyring w !! ("ns", "s") = None
    \/ exists e, keyring w !! ("ns", "s") = Some e /\ is_expired e 0 = true)
    by (right; left; reflexivity).
  split; [exact H|].
  exact (proj1 (source_precedence Runs.echo_fetch "ns" "s" false false None
                  (Some "a") (Some "b") 0 0 w H) "a" eq_refl).
Defined.

(** C5: a get with [no_refresh] prints the cached value as it is, expired
    or not, when a record exists, and fails with [NotFound] otherwise; in
    both cases nothing but stdout changes, so the Source Resolver is never
    called. *)
Theorem no_refresh_get fetch ns s fr nst ttl sh cmd t1 t2 (w : World) :
  cmd_get fetch ns s fr true nst ttl sh cmd t1 t2 w =
    match keyring w !! (ns, s) with
    | Some e => (ROk tt, mkWorld (keyring w) (index_file w) (fetch_log w)
                          (stdout w +:+ value e) (stderr w))
    | None => (RErr (NotFound ns s), w)
    end
  /\ fetch_log (snd (cmd_get fetch ns s fr true nst ttl sh cmd t1 t2 w)) = fetch_log w.
Proof.
  unfold cmd_get. run_m.
  destruct (keyring w !! (ns, s)); split; reflexivity.
Qed.

(** C6: a get without [force_refresh] or [no_refresh] whose cached record
    exists and is not expired prints the cached value and changes nothing
    else: keyring (so the record and its [created_at]), index file and the
    resolver's call log are as before. *)
Theorem cache_hit_no_writeback fetch ns s nst ttl sh cmd t1 t2 (w : World) e :
  keyring w !! (ns, s) = Some e ->
  is_expired e t1 = false ->
  cmd_get fetch ns s false false nst ttl sh cmd t1 t2 w =
    (ROk tt, mkWorld (keyring w) (index_file w) (fetch_log w)
               (stdout w +:+ value e) (stderr w)).
Proof.
  intros Hk He. unfold cmd_get. run_m. rewrite Hk. cbn. rewrite He. reflexivity.
Qed.

Lemma cache_hit_no_writeback_witness :
  let e := mkStoredSecret "cached" 0 None None (Some 10) (Some (Jiff.from_secs 10)) in
  let w := mkWorld (<[("ns", "s") := e]> ∅) (Index.mkSecretIndex []) [] "" "" in
  keyring w !! ("ns", "s") = Some e /\ is_expired e 5 = false
  /\ cmd_get Runs.echo_fetch "ns" "s" false false false None None None 5 6 w =
       (ROk tt, mkWorld (keyring w) (index_file w) (fetch_log w)
                  (stdout w +:+ value e) (stderr w)).
Proof.
  intros e w.
  assert (Hk : keyring w !! ("ns", "s") = Some e) by reflexivity.
  assert (He : is_expired e 5 = false) by reflexivity.
  split; [exact Hk|split; [exact He|]].
  exact (cache_hit_no_writeback Runs.echo_fetch "ns" "s" false None None None 5 6 w e Hk He).
Defined.

(** C7: a get that refreshes and succeeds calls the Source Resolver once
    and builds a new record whose [created_at] is the time read after the
    fetch, whose value, command and mode are the fetched ones, and whose
    [ttl_seconds] is the [ttl] override, else the existing record's
    [ttl_seconds], else absent; unless [no_store] that record replaces the
    keyring entry and the index entry gets its [created_at]; with
    [no_store] keyring and index are unchanged. *)
Theorem refresh_builds_new_record fetch ns s fr nst ttl sh cmd t1 t2 (w w' : World) u :
  (fr = true \/ keyring w !! (ns, s) = None
   \/ exists e, keyring w !! (ns, s) = Some e /\ is_expired e t1 = true) ->
  cmd_get fetch ns s fr false nst ttl sh cmd t1 t2 w = (ROk u, w') ->
  exists c st v r,
    fetch_log w' = fetch_log w ++ [(c, st)] /\ fetch c st = inl v
    /\ created_at r = t2 /\ value r = v
    /\ source_command r = Some c /\ source_type r = Some st
    /\ ttl_seconds r = match ttl with
                       | Some t => Some t
                       | None => match keyring w !! (ns, s) with
                                 | Some e => ttl_seconds e
                                 | None => None
                                 end
                       end
    /\ (nst = false -> keyring w' = <[(ns, s) := r]> (keyring w)
                       /\ index_file w' = Index.upsert_entry (index_file w) ns s t2)
    /\ (nst = true -> keyring w' = keyring w /\ index_file w' = index_file w)
    /\ stdout w' = stdout w +:+ v.
Proof.
  intros Hneed Hrun. unfold cmd_get in Hrun. run_m.
  assert (Hb : (fr || bool_decide (keyring w !! (ns, s) = None)
     || match keyring w !! (ns, s) with Some e => is_expired e t1 | None => false end) = true).
  { destruct Hneed as [->|[->|[e [-> ->]]]]; [reflexivity| |].
    { rewrite bool_decide_true by reflexivity. rewrite orb_true_r. reflexivity. }
    rewrite orb_true_r. reflexivity. }
  rewrite Hb in Hrun. cbn in Hrun. clear Hb Hneed.
  set (ttl' := match ttl with
               | Some t => Some t
               | None => match keyring w !! (ns, s) with
                         | Some e => ttl_seconds e | None => None end
               end) in *.
  destruct (match sh with
            | Some sh0 => ROk (sh0, Sh)
            | None => _
            end) as [[c st]| |]; cbn in Hrun; try discriminate.
  destruct (fetch c st) as [v|] eqn:Hf; cbn in Hrun; try discriminate.
  destruct (new t2 v (Some c) (Some st) ttl') as [r| |] eqn:Hn; cbn in Hrun; try discriminate.
  apply Facts.new_ok in Hn as (Hv & Hc & Hsc & Hst & Ht & _).
  exists c, st, v, r.
  destruct nst; cbn in Hrun; inversion Hrun; subst; cbn; repeat split; congruence.
Qed.

Lemma refresh_builds_new_record_witness :
  let out := cmd_get Runs.echo_fetch "ns" "s" false false false (Some 60) (Some "echo hello")
               None 5 7 Runs.w0 in
  (false = true \/ keyring Runs.w0 !! ("ns", "s") = None
   \/ exists e, keyring Runs.w0 !! ("ns", "s") = Some e /\ is_expired e 5 = true)
  /\ out = (ROk tt, snd out)
  /\ exists c st v r, fetch_log (snd out) = fetch_log Runs.w0 ++ [(c, st)]
       /\ created_at r = 7 /\ value r = v /\ stdout (snd out) = stdout Runs.w0 +:+ v.
Proof.
  intros out.
  assert (H : false = true \/ keyring Runs.w0 !! ("ns", "s") = None
    \/ exists e, keyring Runs.w0 !! ("ns", "s") = Some e /\ is_expired e 5 = true)
    by (right; left; reflexivity).
  assert (Hr : out = (ROk tt, snd out)) by reflexivity.
  split; [exact H|split; [exact Hr|]].
  destruct (refresh_builds_new_record Runs.echo_fetch "ns" "s" false false (Some 60)
              (Some "echo hello") None 5 7 Runs.w0 (snd out) tt H Hr)
    as (c & st & v & r & H1 & _ & H3 & H4 & _ & _ & _ & _ & _ & H8).
  exists c, st, v, r. auto.
Defined.

End GetClaims.
Module EditClaims.
Import Model Engine GetClaims.

Lemma get_writes_consistent fetch ns s fr nr nst ttl sh cmd t1 t2 (w : World) r :
  keyring (snd (cmd_get fetch ns s fr nr nst ttl sh cmd t1 t2 w)) !! (ns, s) = Some r ->
  keyring w !! (ns, s) <> Some r -> expiry_consistent r.
Proof.
  unfold cmd_get. run_m.
  intros Hw Hne. repeat (case_match; simplify_eq/=); try congruence.
  all: try (rewrite lookup_insert_eq in Hw; inversion Hw; subst;
            eapply Facts.new_ok; eassumption).
Qed.

(** What a successful [cmd_edit] does to the record it finds. *)
Lemma edit_ok_shape ns s ttl clr sh cmd (w w' : World) u :
  cmd_edit ns s ttl clr sh cmd w = (ROk u, w') ->
  exists old r,
    keyring w !! (ns, s) = Some old /\ keyring w' = <[(ns, s) := r]> (keyring w)
    /\ value r = value old /\ created_at r = created_at old
    /\ (clr = true -> ttl_seconds r = None /\ expiry_consistent r)
    /\ (forall t, clr = false -> ttl = Some t -> ttl_seconds r = Some t /\ expiry_consistent r).
Proof.
  unfold cmd_edit. run_m. intros Hrun.
  destruct (_ && _); [discriminate|].
  cbn -[recalculate_expires_at set_ttl_seconds set_source] in Hrun.
  destruct (keyring w !! (ns, s)) as [old|] eqn:Hk;
    cbn -[recalculate_expires_at set_ttl_seconds set_source] in Hrun; [|discriminate].
  exists old.
  destruct clr; [|destruct ttl as [t|]].
  - destruct (recalculate_expires_at (set_ttl_seconds old None)) as [r| |] eqn:Hr;
      cbn -[set_source] in Hrun; try discriminate.
    apply Facts.recalculate_ok in Hr as (Hv & Hc & _ & _ & Ht & Hcons).
    cbn in Hv, Hc, Ht.
    destruct sh; [|destruct cmd]; inversion Hrun; subst; eexists;
      (split; [reflexivity|split; [reflexivity|]]); cbn;
      repeat split; try assumption; discriminate.
  - destruct (recalculate_expires_at (set_ttl_seconds old (Some t))) as [r| |] eqn:Hr;
      cbn -[set_source] in Hrun; try discriminate.
    apply Facts.recalculate_ok in Hr as (Hv & Hc & _ & _ & Ht & Hcons).
    cbn in Hv, Hc, Ht.
    destruct sh; [|destruct cmd]; inversion Hrun; subst; eexists;
      (split; [reflexivity|split; [reflexivity|]]); cbn;
      repeat split; try assumption; try discriminate; congruence.
  - cbn -[set_source] in Hrun.
    destruct sh; [|destruct cmd]; inversion Hrun; subst; eexists;
      (split; [reflexivity|split; [reflexivity|]]); cbn;
      repeat split; discriminate.
Qed.

(** C1: every record the code builds or rewrites keeps [expires_at]
    present exactly when [ttl_seconds] is, and equal to
    [created_at + ttl_seconds] then: a record returned by
    [StoredSecret::new]; a record a get writes to the keyring (a refresh);
    and the record a successful edit that sets or clears the TTL writes. *)
Theorem expiry_invariant_established :
  (forall now v c st ttl r, new now v c st ttl = ROk r -> expiry_consistent r)
  /\ (forall fetch ns s fr nr nst ttl sh cmd t1 t2 (w : World) r,
        keyring (snd (cmd_get fetch ns s fr nr nst ttl sh cmd t1 t2 w)) !! (ns, s) = Some r ->
        keyring w !! (ns, s) <> Some r -> expiry_consistent r)
  /\ (forall ns s ttl clr sh cmd (w w' : World) u r,
        (clr = true \/ ttl <> None) ->
        cmd_edit ns s ttl clr sh cmd w = (ROk u, w') ->
        keyring w' !! (ns, s) = Some r -> expiry_consistent r).
Proof.
  split; [|split].
  - intros now v c st ttl r H. apply Facts.new_ok in H. tauto.
  - exact get_writes_consistent.
  - intros ns s ttl clr sh cmd w w' u r Hmod Hrun Hr.
    destruct (edit_ok_shape ns s ttl clr sh cmd w w' u Hrun)
      as (old & r' & _ & Hk & _ & _ & Hclr & Httl).
    rewrite Hk, lookup_insert_eq in Hr. inversion Hr; subst r'.
    destruct clr; [apply Hclr; reflexivity|].
    destruct ttl as [t|]; [|destruct Hmod as [?|[]]; [discriminate|reflexivity]].
    apply (Httl t); reflexivity.
Qed.

Lemma expiry_invariant_established_witness :
  let e := mkStoredSecret "v" 0 None None None None in
  let w := mkWorld (<[("ns", "s") := e]> ∅) (Index.mkSecretIndex []) [] "" "" in
  let out := cmd_edit "ns" "s" (Some 30) false None None w in
  (false = true \/ Some 30 <> None) /\ out = (ROk tt, snd out)
  /\ keyring (snd out) !! ("ns", "s") = Some (mkStoredSecret "v" 0 None None (Some 30)
                                               (Some (Jiff.from_secs 30)))
  /\ expiry_consistent (mkStoredSecret "v" 0 None None (Some 30) (Some (Jiff.from_secs 30))).
Proof.
  intros e w out.
  assert (Hm : false = true \/ Some 30 <> None) by (right; discriminate).
  assert (Hr : out = (ROk tt, snd out)) by reflexivity.
  assert (Hk : keyring (snd out) !! ("ns", "s")
               = Some (mkStoredSecret "v" 0 None None (Some 30) (Some (Jiff.from_secs 30))))
    by reflexivity.
  split; [exact Hm|split; [exact Hr|split; [exact Hk|]]].
  exact (proj2 (proj2 expiry_invariant_established) "ns" "s" (Some 30) false None None
           w (snd out) tt _ Hm Hr Hk).
Defined.

(** C3 fails as stated: an edit with no modification of a pair that has no
    record fails with [NoModifications], not [NotFound], because
    [cmd_edit] checks for modifications before loading the record. *)
Lemma edit_missing_no_modifications_cex :
  keyring Runs.w0 !! ("ns", "s") = None
  /\ cmd_edit "ns" "s" None false None None Runs.w0 = (RErr NoModifications, Runs.w0)
  /\ fst (cmd_edit "ns" "s" None false None None Runs.w0) <> RErr (NotFound "ns" "s").
Proof. split; [reflexivity|split; [reflexivity|discriminate]]. Qed.

(** C3 (amended): an edit of a pair with no cached record fails with
    [NotFound] whenever at least one modification is given, and with
    [NoModifications] when none is; either way nothing is written. *)
Theorem edit_missing_record ns s ttl clr sh cmd (w : World) :
  keyring w !! (ns, s) = None ->
  ((ttl <> None \/ clr = true \/ sh <> None \/ cmd <> None) ->
     cmd_edit ns s ttl clr sh cmd w = (RErr (NotFound ns s), w))
  /\ (ttl = None -> clr = false -> sh = None -> cmd = None ->
        cmd_edit ns s ttl clr sh cmd w = (RErr NoModifications, w)).
Proof.
  intros Hk. unfold cmd_edit. run_m. split.
  - intros Hmod.
    replace (bool_decide (ttl = None) && negb clr && bool_decide (sh = None)
             && bool_decide (cmd = None)) with false.
    + cbn. rewrite Hk. reflexivity.
    + destruct Hmod as [H|[H|[H|H]]].
      * rewrite bool_decide_false by exact H. reflexivity.
      * subst clr. rewrite andb_false_r. reflexivity.
      * rewrite (bool_decide_false (sh = None)) by exact H.
        rewrite andb_false_r. reflexivity.
      * rewrite (bool_decide_false (cmd = None)) by exact H.
        rewrite andb_false_r. reflexivity.
  - intros -> -> -> ->. reflexivity.
Qed.

Lemma edit_missing_record_witness :
  keyring Runs.w0 !! ("ns", "s") = None
  /\ cmd_edit "ns" "s" (Some 5) false None None Runs.w0 = (RErr (NotFound "ns" "s"), Runs.w0).
Proof.
  assert (Hk : keyring Runs.w0 !! ("ns", "s") = None) by reflexivity.
  split; [exact Hk|].
  apply (proj1 (edit_missing_record "ns" "s" (Some 5) false None None Runs.w0 Hk)).
  left. discriminate.
Defined.

(** C8: a successful edit of an existing record keeps its [value] and
    [created_at]; with [clear_ttl] both [ttl_seconds] and [expires_at]
    become absent; with a new ttl [t] (and no [clear_ttl], which the CLI
    declares in conflict with [--ttl]) [expires_at] becomes the original
    [created_at] plus [t]. *)
Theorem edit_recomputes_from_created_at ns s ttl clr sh cmd (w w' : World) u old :
  keyring w !! (ns, s) = Some old ->
  cmd_edit ns s ttl clr sh cmd w = (ROk u, w') ->
  exists r,
    keyring w' !! (ns, s) = Some r
    /\ value r = value old /\ created_at r = created_at old
    /\ (clr = true -> ttl_seconds r = None /\ expires_at r = None)
    /\ (forall t, clr = false -> ttl = Some t ->
          ttl_seconds r = Some t /\ expires_at r = Some (created_at old + Jiff.from_secs t)).
Proof.
  intros Hold Hrun.
  destruct (edit_ok_shape ns s ttl clr sh cmd w w' u Hrun)
    as (old' & r & Hk & Hk' & Hv & Hc & Hclr & Httl).
  rewrite Hold in Hk. inversion Hk; subst old'.
  exists r. rewrite Hk', lookup_insert_eq.
  split; [reflexivity|split; [exact Hv|split; [exact Hc|split]]].
  - intros Hc'. destruct (Hclr Hc') as [Ht Hcons]. split; [exact Ht|].
    unfold expiry_consistent in Hcons. rewrite Ht in Hcons.
    destruct (expires_at r); [contradiction|reflexivity].
  - intros t Hc' Ht'. destruct (Httl t Hc' Ht') as [Ht Hcons]. split; [exact Ht|].
    unfold expiry_consistent in Hcons. rewrite Ht in Hcons.
    destruct (expires_at r); [|contradiction]. rewrite Hcons, Hc. reflexivity.
Qed.

Lemma edit_recomputes_from_created_at_witness :
  let old := mkStoredSecret "v" 100 None None (Some 1) (Some (100 + Jiff.from_secs 1)) in
  let w := mkWorld (<[("ns", "s") := old]> ∅) (Index.mkSecretIndex []) [] "" "" in
  let out := cmd_edit "ns" "s" (Some 30) false None None w in
  keyring w !! ("ns", "s") = Some old /\ out = (ROk tt, snd out)
  /\ exists r, keyring (snd out) !! ("ns", "s") = Some r
       /\ expires_at r = Some (100 + Jiff.from_secs 30).
Proof.
  intros old w out.
  assert (Hk : keyring w !! ("ns", "s") = Some old) by reflexivity.
  assert (Hr : out = (ROk tt, snd out)) by reflexivity.
  split; [exact Hk|split; [exact Hr|]].
  destruct (edit_recomputes_from_created_at "ns" "s" (Some 30) false None None w (snd out)
              tt old Hk Hr) as (r & H1 & _ & _ & _ & H5).
  exists r. split; [exact H1|]. exact (proj2 (H5 30 eq_refl eq_refl)).
Defined.

End EditClaims.

(* ------------------------------------------------------------------ *)
(** ** Properties of [src/source.rs] *)

Module SourceFacts.
Import Model Source.

Example trim_example : trim "  hello world  " = "hello world".
Proof. reflexivity. Qed.

Example split_example : split_whitespace " my-cmd   arg1 arg2 " = ["my-cmd"; "arg1"; "arg2"].
Proof. reflexivity. Qed.

Definition non_ws (c : ascii) : bool := negb (is_whitespace c).

Lemma split_ws_concat (l cur : list ascii) :
  concat (split_ws cur l) = rev cur ++ List.filter non_ws l.
Proof.
  unfold non_ws. revert cur. induction l as [|c l IH]; intros cur; cbn [split_ws List.filter].
  - destruct cur; cbn; [reflexivity|]. rewrite app_nil_r. reflexivity.
  - destruct (is_whitespace c) eqn:Hc; cbn [negb].
    + destruct cur as [|x cur]; [exact (IH [])|].
      cbn [concat]. rewrite (IH []). reflexivity.
    + rewrite (IH (c :: cur)). cbn [rev]. rewrite <- app_assoc. reflexivity.
Qed.

Lemma split_ws_tokens (l cur : list ascii) :
  Forall (fun c => is_whitespace c = false) cur ->
  Forall (fun t => t <> [] /\ Forall (fun c => is_whitespace c = false) t) (split_ws cur l).
Proof.
  revert cur. induction l as [|c l IH]; intros cur Hcur; cbn [split_ws].
  - destruct cur as [|x cur]; constructor; [|constructor].
    split; [|apply Forall_rev; exact Hcur].
    cbn. intros H. apply app_eq_nil in H as [_ H]. discriminate.
  - destruct (is_whitespace c) eqn:Hc.
    + destruct cur as [|x cur]; [apply IH; constructor|].
      constructor; [|apply IH; constructor].
      split; [|apply Forall_rev; exact Hcur].
      cbn. intros H. apply app_eq_nil in H as [_ H]. discriminate.
    + apply IH. constructor; assumption.
Qed.

(** [split_whitespace] (on the bytes of the string) yields non-empty
    tokens free of whitespace, and together, in order, the tokens are
    exactly the non-whitespace characters of the input; an input of only
    whitespace yields no token. *)
Theorem split_whitespace_tokens (l : list ascii) :
  concat (split_ws [] l) = List.filter non_ws l
  /\ Forall (fun t => t <> [] /\ Forall (fun c => is_whitespace c = false) t) (split_ws [] l)
  /\ (Forall (fun c => is_whitespace c = true) l -> split_ws [] l = []).
Proof.
  split; [exact (split_ws_concat l [])|].
  split; [apply split_ws_tokens; constructor|].
  intros Hws.
  assert (Hf : List.filter non_ws l = []).
  { induction Hws as [|c l Hc _ IH]; [reflexivity|].
    cbn. unfold non_ws in *. rewrite Hc. exact IH. }
  pose proof (split_ws_concat l []) as Hc. rewrite Hf in Hc. cbn in Hc.
  pose proof (split_ws_tokens l [] (List.Forall_nil _)) as Ht.
  destruct (split_ws [] l) as [|t ts]; [reflexivity|].
  inversion Ht as [|? ? [Hne _] _]; subst.
  cbn in Hc. apply app_eq_nil in Hc as [Ht0 _]. contradiction.
Qed.

Lemma split_whitespace_tokens_witness :
  Forall (fun c => is_whitespace c = true) (list_ascii_of_string "  ")
  /\ split_ws [] (list_ascii_of_string "  ") = [].
Proof.
  assert (H : Forall (fun c => is_whitespace c = true) (list_ascii_of_string "  "))
    by (repeat constructor).
  split; [exact H|]. exact (proj2 (proj2 (split_whitespace_tokens _)) H).
Defined.

Lemma trim_start_spec (l : list ascii) :
  exists a, l = a ++ trim_start l /\ Forall (fun c => is_whitespace c = true) a
  /\ (forall c r, trim_start l = c :: r -> is_whitespace c = false).
Proof.
  induction l as [|c l IH]; cbn.
  - exists []. split; [reflexivity|split; [constructor|]]. discriminate.
  - destruct (is_whitespace c) eqn:Hc.
    + destruct IH as (a & Ha & Hws & Hh). exists (c :: a).
      split; [cbn; rewrite <- Ha; reflexivity|split; [constructor; assumption|exact Hh]].
    + exists []. split; [reflexivity|split; [constructor|]].
      intros c' r H. inversion H; subst. exact Hc.
Qed.

Lemma trim_start_keep (l : list ascii) :
  (forall c r, l = c :: r -> is_whitespace c = false) -> trim_start l = l.
Proof.
  destruct l as [|c r]; intros H; [reflexivity|]. cbn. rewrite (H c r eq_refl). reflexivity.
Qed.

(** [str::trim] removes exactly a whitespace prefix and a whitespace
    suffix: the input is [a ++ trim l ++ b] with [a] and [b] all
    whitespace, the result neither starts nor ends with whitespace, and
    trimming twice is trimming once. *)
Theorem trim_strips_whitespace (l : list ascii) :
  (exists a b, l = a ++ trim_list l ++ b
     /\ Forall (fun c => is_whitespace c = true) a
     /\ Forall (fun c => is_whitespace c = true) b)
  /\ (forall c r, trim_list l = c :: r -> is_whitespace c = false)
  /\ (forall r c, trim_list l = r ++ [c] -> is_whitespace c = false)
  /\ trim_list (trim_list l) = trim_list l.
Proof.
  destruct (trim_start_spec l) as (a & Ha & Hwa & Hha).
  destruct (trim_start_spec (rev (trim_start l))) as (b' & Hb & Hwb & Hhb).
  assert (Hm : trim_start l = trim_list l ++ rev b').
  { unfold trim_list. rewrite <- rev_app_distr, <- Hb, rev_involutive. reflexivity. }
  assert (Hhead : forall c r, trim_list l = c :: r -> is_whitespace c = false).
  { intros c r H. apply (Hha c (r ++ rev b')). rewrite Hm, H. reflexivity. }
  assert (Hlast : forall r c, trim_list l = r ++ [c] -> is_whitespace c = false).
  { intros r c H. unfold trim_list in H.
    apply (f_equal (@rev ascii)) in H. rewrite rev_involutive, rev_app_distr in H.
    exact (Hhb c (rev r) H). }
  split; [|split; [exact Hhead|split; [exact Hlast|]]].
  - exists a, (rev b'). split; [rewrite Ha at 1; rewrite Hm; reflexivity|].
    split; [exact Hwa|apply Forall_rev; exact Hwb].
  - unfold trim_list at 1. rewrite (trim_start_keep (trim_list l) Hhead).
    rewrite trim_start_keep.
    + apply rev_involutive.
    + intros c r H. apply (Hlast (rev r) c).
      rewrite <- (rev_involutive (trim_list l)), H. reflexivity.
Qed.

Lemma trim_strips_whitespace_witness :
  trim_list (list_ascii_of_string "  tok  ") = list_ascii_of_string "tok"
  /\ trim_list (trim_list (list_ascii_of_string "  tok  ")) = list_ascii_of_string "tok".
Proof.
  assert (H : trim_list (list_ascii_of_string "  tok  ") = list_ascii_of_string "tok")
    by reflexivity.
  split; [exact H|].
  rewrite (proj2 (proj2 (proj2 (trim_strips_whitespace (list_ascii_of_string "  tok  "))))).
  exact H.
Defined.

(** [fetch_secret] spawns [sh -c <command>] with the command passed as it
    is in [Sh] mode; in [Cmd] mode it spawns the first whitespace token
    with the remaining tokens as arguments, and a command of only
    whitespace fails with [SourceFailed "empty command"] without spawning
    anything. *)
Theorem fetch_secret_spawns run show_status (command : string) :
  snd (fetch_secret run show_status command Sh) = [("sh", ["-c"; command])]
  /\ (Forall (fun c => is_whitespace c = true) (list_ascii_of_string command) ->
      fetch_secret run show_status command Cmd = (RErr (SourceFailed "empty command"), []))
  /\ (forall p args, split_whitespace command = p :: args ->
      snd (fetch_secret run show_status command Cmd) = [(p, args)]).
Proof.
  unfold fetch_secret. split; [|split].
  - destruct (run _ _) as [o|]; [destruct (success o)|]; reflexivity.
  - intros Hws. unfold split_whitespace.
    rewrite (proj2 (proj2 (split_whitespace_tokens _)) Hws). reflexivity.
  - intros p args ->. destruct (run p args) as [o|]; [destruct (success o)|]; reflexivity.
Qed.

Lemma fetch_secret_spawns_witness :
  Forall (fun c => is_whitespace c = true) (list_ascii_of_string " ")
  /\ fetch_secret (fun _ _ => None) (fun _ => "") " " Cmd
     = (RErr (SourceFailed "empty command"), []).
Proof.
  assert (H : Forall (fun c => is_whitespace c = true) (list_ascii_of_string " "))
    by (repeat constructor).
  split; [exact H|].
  exact (proj1 (proj2 (fetch_secret_spawns (fun _ _ => None) (fun _ => "") " ")) H).
Defined.

(** [fetch_secret] returns a value only when the one process it spawned
    exited successfully, and that value is its stdout trimmed, so it
    neither starts nor ends with whitespace; a spawned process that exits
    unsuccessfully makes it fail with [SourceFailed]. *)
Theorem fetch_secret_result run show_status (command : string) (st : SourceType) :
  (forall v, fst (fetch_secret run show_status command st) = ROk v ->
   exists p args o,
     snd (fetch_secret run show_status command st) = [(p, args)]
     /\ run p args = Some o /\ success o = true /\ v = trim (out o)
     /\ (forall c r, list_ascii_of_string v = c :: r -> is_whitespace c = false)
     /\ (forall r c, list_ascii_of_string v = r ++ [c] -> is_whitespace c = false))
  /\ (forall p args o,
        snd (fetch_secret run show_status command st) = [(p, args)] ->
        run p args = Some o -> success o = false ->
        exists msg, fst (fetch_secret run show_status command st) = RErr (SourceFailed msg)).
Proof.
  assert (Htrim : forall x, (forall c r, list_ascii_of_string (trim x) = c :: r ->
                               is_whitespace c = false)
                         /\ (forall r c, list_ascii_of_string (trim x) = r ++ [c] ->
                               is_whitespace c = false)).
  { intros x. unfold trim. rewrite list_ascii_of_string_of_list_ascii.
    destruct (SourceFacts.trim_strips_whitespace (list_ascii_of_string x)) as (_ & H1 & H2 & _).
    split; assumption. }
  unfold fetch_secret.
  destruct (match st with
            | Sh => Some ("sh", ["-c"; command])
            | Cmd => _
            end) as [[p args]|]; cbn.
  - destruct (run p args) as [o|] eqn:Hr; cbn; [|split; [discriminate|]].
    + destruct (success o) eqn:Hs; cbn; split.
      * intros v Hv. inversion Hv; subst. exists p, args, o.
        split; [reflexivity|split; [exact Hr|split; [exact Hs|split; [reflexivity|]]]].
        apply Htrim.
      * intros p' args' o' Hp Hr' Hs'. inversion Hp; subst.
        rewrite Hr in Hr'. inversion Hr'; subst. congruence.
      * discriminate.
      * intros. eexists. reflexivity.
    + intros p' args' o' Hp Hr'. inversion Hp; subst. congruence.
  - split; [discriminate|]. discriminate.
Qed.

Lemma fetch_secret_result_witness :
  let run := fun (_ : string) (_ : list string) => Some (mkOutput true " hi " "") in
  fst (fetch_secret run (fun _ => "") "echo hi" Sh) = ROk "hi"
  /\ exists p args o, run p args = Some o /\ success o = true /\ "hi" = trim (out o).
Proof.
  intros run. assert (H : fst (fetch_secret run (fun _ => "") "echo hi" Sh) = ROk "hi")
    by reflexivity.
  split; [exact H|].
  destruct (proj1 (fetch_secret_result run (fun _ => "") "echo hi" Sh) "hi" H)
    as (p & args & o & _ & H2 & H3 & H4 & _).
  exists p, args, o. auto.
Defined.

End SourceFacts.

(* ------------------------------------------------------------------ *)
(** ** Properties of [src/index.rs] and [src/store.rs] *)

Module IndexFacts.
Import Index.

Lemma is_pair_refl ns s t : is_pair ns s (mkIndexEntry ns s t) = true.
Proof. unfold is_pair. cbn. rewrite !String.eqb_refl. reflexivity. Qed.

Lemma upsert_entries_absent (es : list IndexEntry) ns s t :
  (forall e, In e es -> is_pair ns s e = false) ->
  upsert_entries es ns s t = es ++ [mkIndexEntry ns s t].
Proof.
  induction es as [|e es IH]; intros H; [reflexivity|].
  cbn. rewrite (H e (or_introl eq_refl)). rewrite IH; [reflexivity|].
  intros e' He'. apply H. right. exact He'.
Qed.

Lemma upsert_entries_present (es : list IndexEntry) ns s t :
  (exists e, In e es /\ is_pair ns s e = true) ->
  length (upsert_entries es ns s t) = length es.
Proof.
  induction es as [|e es IH]; intros (e' & Hin & Hp); [destruct Hin|].
  cbn. destruct (is_pair ns s e) eqn:He; [reflexivity|].
  cbn. f_equal. apply IH. destruct Hin as [<-|Hin]; [congruence|eauto].
Qed.

(** On the entries of other namespaces [upsert_entries] is the identity. *)
Lemma upsert_entries_other_ns (es : list IndexEntry) ns s t ns' :
  ns' <> ns ->
  List.filter (fun e => String.eqb (namespace e) ns') (upsert_entries es ns s t)
  = List.filter (fun e => String.eqb (namespace e) ns') es.
Proof.
  intros Hne. assert (Hf : String.eqb ns ns' = false) by (apply String.eqb_neq; congruence).
  induction es as [|e es IH]; cbn.
  - rewrite Hf. reflexivity.
  - destruct (is_pair ns s e) eqn:He.
    + apply IndexClaims.is_pair_eq in He as [Hn _]. cbn. rewrite Hn, Hf. reflexivity.
    + cbn. rewrite IH. reflexivity.
Qed.

Lemma upsert_entries_listed (es : list IndexEntry) ns s t :
  In (mkIndexEntry ns s t)
     (List.filter (fun e => String.eqb (namespace e) ns) (upsert_entries es ns s t)).
Proof.
  induction es as [|e es IH]; cbn.
  - rewrite String.eqb_refl. left. reflexivity.
  - destruct (is_pair ns s e) eqn:He.
    + apply IndexClaims.is_pair_eq in He as [Hn Hs]. cbn. rewrite Hn, String.eqb_refl, Hs.
      left. reflexivity.
    + cbn. destruct (String.eqb (namespace e) ns); [right|]; exact IH.
Qed.

(** [upsert_entry] for a pair absent from the index appends its entry at
    the end, keeping the order of the others; for a pair already present it
    updates in place and the number of entries stays the same. *)
Theorem upsert_entry_appends_or_updates (index : SecretIndex) ns s t :
  ((forall e, In e (entries index) -> is_pair ns s e = false) ->
     entries (upsert_entry index ns s t) = entries index ++ [mkIndexEntry ns s t])
  /\ ((exists e, In e (entries index) /\ is_pair ns s e = true) ->
     length (entries (upsert_entry index ns s t)) = length (entries index)).
Proof.
  split; intros H; unfold upsert_entry; cbn.
  - apply upsert_entries_absent. exact H.
  - apply upsert_entries_present. exact H.
Qed.

Lemma upsert_entry_appends_or_updates_witness :
  let idx := mkSecretIndex [mkIndexEntry "a" "x" 1] in
  (forall e, In e (entries idx) -> is_pair "ns" "s" e = false)
  /\ entries (upsert_entry idx "ns" "s" 2) = entries idx ++ [mkIndexEntry "ns" "s" 2].
Proof.
  intros idx. assert (H : forall e, In e (entries idx) -> is_pair "ns" "s" e = false).
  { intros e [<-|[]]. reflexivity. }
  split; [exact H|]. exact (proj1 (upsert_entry_appends_or_updates idx "ns" "s" 2) H).
Defined.

(** [remove_entry] of a pair absent from the index leaves it as it is, and
    removing a pair just upserted into an index that did not have it
    gives the original index back. *)
Theorem remove_after_upsert (index : SecretIndex) ns s t :
  (forall e, In e (entries index) -> is_pair ns s e = false) ->
  remove_entry index ns s = index
  /\ remove_entry (upsert_entry index ns s t) ns s = index.
Proof.
  intros H. destruct index as [es]. cbn in H.
  assert (Hk : List.filter (fun e => negb (is_pair ns s e)) es = es).
  { induction es as [|e es IH]; [reflexivity|]. cbn.
    rewrite (H e (or_introl eq_refl)). cbn. rewrite IH; [reflexivity|].
    intros e' He'. apply H. right. exact He'. }
  unfold remove_entry, upsert_entry. cbn. split; [rewrite Hk; reflexivity|].
  rewrite upsert_entries_absent by exact H. rewrite List.filter_app, Hk.
  cbn. rewrite is_pair_refl. cbn. rewrite app_nil_r. reflexivity.
Qed.

Lemma remove_after_upsert_witness :
  let idx := mkSecretIndex [mkIndexEntry "a" "x" 1] in
  (forall e, In e (entries idx) -> is_pair "ns" "s" e = false)
  /\ remove_entry (upsert_entry idx "ns" "s" 2) "ns" "s" = idx.
Proof.
  intros idx. assert (H : forall e, In e (entries idx) -> is_pair "ns" "s" e = false).
  { intros e [<-|[]]. reflexivity. }
  split; [exact H|]. exact (proj2 (remove_after_upsert idx "ns" "s" 2 H)).
Defined.

(** After [upsert_entry] the pair is listed by [filter_entries] under its
    namespace with the new timestamp, and the listing of every other
    namespace is unchanged. *)
Theorem upsert_listing (index : SecretIndex) ns s t :
  In (mkIndexEntry ns s t) (filter_entries (upsert_entry index ns s t) (Some ns))
  /\ (forall ns', ns' <> ns ->
        filter_entries (upsert_entry index ns s t) (Some ns') = filter_entries index (Some ns')).
Proof.
  unfold filter_entries, upsert_entry. cbn. split.
  - apply upsert_entries_listed.
  - intros ns' Hne. apply upsert_entries_other_ns. exact Hne.
Qed.

Lemma upsert_listing_witness :
  let idx := mkSecretIndex [mkIndexEntry "a" "x" 1] in
  ("a" <> "ns")
  /\ filter_entries (upsert_entry idx "ns" "s" 2) (Some "a") = filter_entries idx (Some "a").
Proof.
  intros idx. assert (H : "a" <> "ns") by discriminate.
  split; [exact H|]. exact (proj2 (upsert_listing idx "ns" "s" 2) "a" H).
Defined.

(** After [remove_entry] no entry listed under the namespace has the
    removed name, and the listing of every other namespace is unchanged. *)
Theorem remove_listing (index : SecretIndex) ns s :
  (forall e, In e (filter_entries (remove_entry index ns s) (Some ns)) -> secret e <> s)
  /\ (forall ns', ns' <> ns ->
        filter_entries (remove_entry index ns s) (Some ns') = filter_entries index (Some ns')).
Proof.
  unfold filter_entries, remove_entry. cbn. split.
  - intros e Hin. apply List.filter_In in Hin as [Hin Hns].
    apply List.filter_In in Hin as [_ Hp]. apply String.eqb_eq in Hns.
    intros Hs. unfold is_pair in Hp. rewrite Hns, Hs, !String.eqb_refl in Hp. discriminate.
  - intros ns' Hne. destruct index as [es]. cbn.
    induction es as [|e es IH]; [reflexivity|]. cbn.
    destruct (is_pair ns s e) eqn:He; cbn.
    + apply IndexClaims.is_pair_eq in He as [Hn _].
      assert (Hf : String.eqb (namespace e) ns' = false)
        by (apply String.eqb_neq; congruence).
      rewrite Hf. exact IH.
    + destruct (String.eqb (namespace e) ns'); [f_equal|]; exact IH.
Qed.

Lemma remove_listing_witness :
  let idx := mkSecretIndex [mkIndexEntry "a" "x" 1; mkIndexEntry "ns" "s" 2] in
  ("a" <> "ns")
  /\ filter_entries (remove_entry idx "ns" "s") (Some "a") = filter_entries idx (Some "a").
Proof.
  intros idx. assert (H : "a" <> "ns") by discriminate.
  split; [exact H|]. exact (proj2 (remove_listing idx "ns" "s") "a" H).
Defined.

(** [service_name] is injective: distinct namespaces get distinct keyring
    services, so their secrets never share a keyring entry. *)
Theorem service_name_injective (ns1 ns2 : string) :
  Store.service_name ns1 = Store.service_name ns2 -> ns1 = ns2.
Proof. unfold Store.service_name. intros H. inversion H as [H1]. exact H1. Qed.

Lemma service_name_injective_witness :
  Store.service_name "prod" = Store.service_name "prod" /\ "prod" = "prod".
Proof.
  assert (H : Store.service_name "prod" = Store.service_name "prod") by reflexivity.
  split; [exact H|]. exact (service_name_injective "prod" "prod" H).
Defined.

End IndexFacts.

Module EngineFacts.
Import Model Engine GetClaims.

Definition others (ns s : string) (es : list Index.IndexEntry) : list Index.IndexEntry :=
  List.filter (fun e => negb (Index.is_pair ns s e)) es.

Lemma upsert_entries_others (es : list Index.IndexEntry) ns s t :
  others ns s (Index.upsert_entries es ns s t) = others ns s es.
Proof.
  unfold others. induction es as [|e es IH]; cbn [Index.upsert_entries List.filter].
  - rewrite IndexFacts.is_pair_refl. reflexivity.
  - destruct (Index.is_pair ns s e) eqn:He; cbn [List.filter negb].
    + replace (Index.is_pair ns s (Index.mkIndexEntry (Index.namespace e) (Index.secret e) t))
        with (Index.is_pair ns s e) by reflexivity.
      rewrite He. reflexivity.
    + rewrite He, IH. reflexivity.
Qed.

Lemma no_store_keeps fetch ns s fr nr ttl sh cmd t1 t2 (w : World) :
  keyring (snd (cmd_get fetch ns s fr nr true ttl sh cmd t1 t2 w)) = keyring w
  /\ index_file (snd (cmd_get fetch ns s fr nr true ttl sh cmd t1 t2 w)) = index_file w.
Proof.
  unfold cmd_get. run_m. repeat (case_match; simplify_eq/=); split; reflexivity.
Qed.

(** An edit never calls the Source Resolver, never touches the index
    file, and never changes the keyring entry of another pair, whatever its
    outcome. *)
Theorem edit_frame ns s ttl clr sh cmd (w : World) :
  let w' := snd (cmd_edit ns s ttl clr sh cmd w) in
  fetch_log w' = fetch_log w /\ index_file w' = index_file w
  /\ (forall k, k <> (ns, s) -> keyring w' !! k = keyring w !! k).
Proof.
  unfold cmd_edit. run_m.
  repeat (case_match; simplify_eq/=); (split; [reflexivity|split; [reflexivity|]]);
    intros k Hk; try reflexivity; apply lookup_insert_ne; congruence.
Qed.

Lemma edit_frame_witness :
  let w := mkWorld (<[("ns", "s") := mkStoredSecret "v" 0 None None None None]>
                      (<[("ns", "t") := mkStoredSecret "u" 0 None None None None]> ∅))
             (Index.mkSecretIndex []) [] "" "" in
  ("ns", "t") <> ("ns", "s")
  /\ keyring (snd (cmd_edit "ns" "s" (Some 60) false None None w)) !! ("ns", "t")
     = keyring w !! ("ns", "t").
Proof.
  intros w. assert (H : ("ns", "t") <> ("ns", "s")) by discriminate.
  split; [exact H|].
  exact (proj2 (proj2 (edit_frame "ns" "s" (Some 60) false None None w)) ("ns", "t") H).
Defined.

Lemma edit_ok_source ns s ttl clr sh cmd (w w' : World) u :
  cmd_edit ns s ttl clr sh cmd w = (ROk u, w') ->
  exists old r,
    keyring w !! (ns, s) = Some old /\ keyring w' = <[(ns, s) := r]> (keyring w)
    /\ value r = value old /\ created_at r = created_at old
    /\ (forall c, sh = Some c -> source_command r = Some c /\ source_type r = Some Sh)
    /\ (forall c, sh = None -> cmd = Some c -> source_command r = Some c /\ source_type r = Some Cmd)
    /\ (sh = None -> cmd = None ->
        source_command r = source_command old /\ source_type r = source_type old)
    /\ (clr = false -> ttl = None ->
        ttl_seconds r = ttl_seconds old /\ expires_at r = expires_at old).
Proof.
  unfold cmd_edit. run_m. intros Hrun.
  repeat (case_match; simplify_eq/=).
  all: try match goal with
       | H : recalculate_expires_at _ = ROk _ |- _ =>
           apply Facts.recalculate_ok in H as (Hv & Hc & Hsc & Hst & Ht & _); cbn in Hv, Hc, Hsc, Hst, Ht
       end.
  all: do 2 eexists; (split; [reflexivity|split; [reflexivity|]]); cbn.
  all: repeat split; intros; simplify_eq/=; try congruence.
Qed.

Lemma refresh_stored_shape fetch ns s fr ttl sh cmd t1 t2 (w w' : World) u :
  (fr = true \/ keyring w !! (ns, s) = None
   \/ exists e, keyring w !! (ns, s) = Some e /\ is_expired e t1 = true) ->
  cmd_get fetch ns s fr false false ttl sh cmd t1 t2 w = (ROk u, w') ->
  exists v r,
    keyring w' = <[(ns, s) := r]> (keyring w) /\ value r = v /\ stdout w' = stdout w +:+ v
    /\ created_at r = t2 /\ expiry_consistent r
    /\ ttl_seconds r = match ttl with
                       | Some t => Some t
                       | None => match keyring w !! (ns, s) with
                                 | Some e => ttl_seconds e
                                 | None => None
                                 end
                       end.
Proof.
  intros Hneed Hrun. unfold cmd_get in Hrun. run_m.
  assert (Hb : (fr || bool_decide (keyring w !! (ns, s) = None)
     || match keyring w !! (ns, s) with Some e => is_expired e t1 | None => false end) = true).
  { destruct Hneed as [->|[->|[e [-> ->]]]]; [reflexivity| |].
    { rewrite bool_decide_true by reflexivity. rewrite orb_true_r. reflexivity. }
    rewrite orb_true_r. reflexivity. }
  rewrite Hb in Hrun. cbn in Hrun. clear Hb Hneed.
  repeat (case_match; simplify_eq/=).
  all: match goal with H : new _ _ _ _ _ = ROk _ |- _ =>
    apply Facts.new_ok in H as (Hv & Hc & _ & _ & Ht & Hcons) end.
  all: do 2 eexists; split; [reflexivity|]; split; [exact Hv|]; split; [reflexivity|];
    split; [exact Hc|]; split; [exact Hcons|]; congruence.
Qed.

(** A get never changes the keyring entry of another pair, nor the index
    entries of other pairs, whatever its outcome. *)
Theorem get_frame fetch ns s fr nr nst ttl sh cmd t1 t2 (w : World) :
  let w' := snd (cmd_get fetch ns s fr nr nst ttl sh cmd t1 t2 w) in
  (forall k, k <> (ns, s) -> keyring w' !! k = keyring w !! k)
  /\ others ns s (Index.entries (index_file w')) = others ns s (Index.entries (index_file w)).
Proof.
  unfold cmd_get. run_m.
  repeat (case_match; simplify_eq/=); split; try (intros; reflexivity); try reflexivity.
  all: try (intros k Hk; apply lookup_insert_ne; congruence).
  all: apply upsert_entries_others.
Qed.

Lemma get_frame_witness :
  let w := mkWorld (<[("a", "x") := mkStoredSecret "old" 0 None None None None]> ∅)
             (Index.mkSecretIndex []) [] "" "" in
  ("a", "x") <> ("ns", "s")
  /\ keyring (snd (cmd_get Runs.echo_fetch "ns" "s" false false false None (Some "c") None 0 0 w))
       !! ("a", "x") = keyring w !! ("a", "x").
Proof.
  intros w. assert (H : ("a", "x") <> ("ns", "s")) by discriminate.
  split; [exact H|].
  exact (proj1 (get_frame Runs.echo_fetch "ns" "s" false false false None (Some "c") None 0 0 w)
           ("a", "x") H).
Defined.

(** When the Source Resolver fails, a get writes neither the keyring nor
    the index, and it succeeds only by printing the cached value. *)
Theorem get_source_failure_no_write fetch ns s fr nr nst ttl sh cmd t1 t2 (w : World) e :
  (forall c st, fetch c st = inr e) ->
  let out := cmd_get fetch ns s fr nr nst ttl sh cmd t1 t2 w in
  keyring (snd out) = keyring w /\ index_file (snd out) = index_file w
  /\ (fst out = ROk tt ->
      exists r, keyring w !! (ns, s) = Some r /\ stdout (snd out) = stdout w +:+ value r).
Proof.
  intros Hf out. subst out. unfold cmd_get. run_m.
  repeat (case_match; simplify_eq/=); try (rewrite Hf in *; discriminate).
  all: (split; [reflexivity|split; [reflexivity|]]); try discriminate.
  all: intros _; eexists; split; [reflexivity|reflexivity].
Qed.

Lemma get_source_failure_no_write_witness :
  let f := fun (_ : string) (_ : SourceType) => (inr (SourceFailed "x") : string + HemliError) in
  (forall c st, f c st = inr (SourceFailed "x"))
  /\ keyring (snd (cmd_get f "ns" "s" true false false None (Some "c") None 0 0 Runs.w0))
     = keyring Runs.w0.
Proof.
  intros f. assert (H : forall c st, f c st = inr (SourceFailed "x")) by reflexivity.
  split; [exact H|].
  exact (proj1 (get_source_failure_no_write f "ns" "s" true false false None (Some "c") None
                  0 0 Runs.w0 _ H)).
Defined.

(** [cmd_delete] always succeeds; afterwards the pair has no keyring
    entry and no index entry, every other keyring entry and index entry is
    as before, nothing was fetched, and deleting again changes neither the
    keyring nor the index. *)
Theorem cmd_delete_effect ns s (w : World) :
  let w' := snd (cmd_delete ns s w) in
  fst (cmd_delete ns s w) = ROk tt
  /\ keyring w' !! (ns, s) = None
  /\ (forall k, k <> (ns, s) -> keyring w' !! k = keyring w !! k)
  /\ (forall e, In e (Index.entries (index_file w')) -> Index.is_pair ns s e = false)
  /\ others ns s (Index.entries (index_file w')) = others ns s (Index.entries (index_file w))
  /\ fetch_log w' = fetch_log w
  /\ keyring (snd (cmd_delete ns s w')) = keyring w'
  /\ index_file (snd (cmd_delete ns s w')) = index_file w'.
Proof.
  unfold cmd_delete, delete_secret. run_m.
  split; [reflexivity|split; [apply lookup_delete_eq|split]].
  - intros k Hk. apply lookup_delete_ne. congruence.
  - split; [|split; [|split; [reflexivity|split]]].
    + intros e Hin. apply List.filter_In in Hin as [_ Hp].
      destruct (Index.is_pair ns s e); [discriminate|reflexivity].
    + unfold others. induction (Index.entries (index_file w)) as [|e es IH]; [reflexivity|].
      cbn. destruct (Index.is_pair ns s e) eqn:E; cbn; rewrite ?E; cbn; [exact IH|]. rewrite IH. reflexivity.
    + apply delete_delete_eq.
    + unfold Index.remove_entry. cbn. f_equal.
      induction (Index.entries (index_file w)) as [|e es IH]; [reflexivity|].
      cbn. destruct (Index.is_pair ns s e) eqn:E; cbn; rewrite ?E; cbn; [exact IH|]. rewrite IH. reflexivity.
Qed.

Lemma cmd_delete_effect_witness :
  let w := mkWorld (<[("a", "x") := mkStoredSecret "v" 0 None None None None]> ∅)
             (Index.mkSecretIndex []) [] "" "" in
  ("a", "x") <> ("ns", "s")
  /\ keyring (snd (cmd_delete "ns" "s" w)) !! ("a", "x") = keyring w !! ("a", "x").
Proof.
  intros w. assert (H : ("a", "x") <> ("ns", "s")) by discriminate.
  split; [exact H|].
  exact (proj1 (proj2 (proj2 (cmd_delete_effect "ns" "s" w))) ("a", "x") H).
Defined.

(** After [cmd_delete], a get with [no_refresh] fails with [NotFound], and
    a get with no source override fails with [NoSource] without calling
    the Source Resolver: nothing of the deleted secret survives to be
    served or refreshed. *)
Theorem get_after_delete fetch ns s fr nst ttl sh cmd t1 t2 (w : World) :
  let w' := snd (cmd_delete ns s w) in
  cmd_get fetch ns s fr true nst ttl sh cmd t1 t2 w' = (RErr (NotFound ns s), w')
  /\ cmd_get fetch ns s fr false nst ttl None None t1 t2 w' = (RErr NoSource, w').
Proof.
  intros w'. assert (Hk : keyring w' !! (ns, s) = None)
    by (subst w'; unfold cmd_delete, delete_secret; run_m; apply lookup_delete_eq).
  clearbody w'. unfold cmd_get. run_m. rewrite Hk. split; [reflexivity|].
  cbn. destruct fr; reflexivity.
Qed.

(** A get that refreshed and stored its value is followed by cache hits:
    a later get without [force_refresh] or [no_refresh], at any time up to
    the new record's expiry (any time at all when it has no TTL), prints
    the value just fetched and calls the Source Resolver no more. *)
Theorem refresh_then_cached fetch ns s fr ttl sh cmd t1 t2 (w w' : World) u
    nst2 ttl2 sh2 cmd2 t1' t2' :
  (fr = true \/ keyring w !! (ns, s) = None
   \/ exists e, keyring w !! (ns, s) = Some e /\ is_expired e t1 = true) ->
  cmd_get fetch ns s fr false false ttl sh cmd t1 t2 w = (ROk u, w') ->
  match ttl with
  | Some t => Some t
  | None => match keyring w !! (ns, s) with Some e => ttl_seconds e | None => None end
  end = None
  \/ (exists t, match ttl with
                | Some t => Some t
                | None => match keyring w !! (ns, s) with
                          | Some e => ttl_seconds e | None => None end
                end = Some t /\ t1' <= t2 + Jiff.from_secs t) ->
  exists v,
    stdout w' = stdout w +:+ v
    /\ cmd_get fetch ns s false false nst2 ttl2 sh2 cmd2 t1' t2' w'
       = (ROk tt, mkWorld (keyring w') (index_file w') (fetch_log w') (stdout w' +:+ v)
                    (stderr w')).
Proof.
  intros Hneed Hrun Httl.
  destruct (refresh_stored_shape fetch ns s fr ttl sh cmd t1 t2 w w' u Hneed Hrun)
    as (v & r & Hk & Hv & Hout & Hc & Hcons & Ht).
  exists v. split; [exact Hout|].
  assert (He : is_expired r t1' = false).
  { unfold is_expired, expiry_consistent in *. rewrite Ht in Hcons.
    destruct Httl as [Hn|(t & Hs & Hle)].
    - rewrite Hn in Hcons. destruct (expires_at r); [contradiction|reflexivity].
    - rewrite Hs in Hcons. destruct (expires_at r); [|contradiction].
      apply Z.ltb_ge. lia. }
  assert (Hr : keyring w' !! (ns, s) = Some r) by (rewrite Hk; apply lookup_insert_eq).
  clear Hrun Hneed. unfold cmd_get. run_m. rewrite Hr. cbn. rewrite He. cbn.
  rewrite Hv. reflexivity.
Qed.

Lemma refresh_then_cached_witness :
  let w' := snd (cmd_get Runs.echo_fetch "ns" "s" false false false None (Some "echo hello")
                   None 0 7 Runs.w0) in
  (false = true \/ keyring Runs.w0 !! ("ns", "s") = None
   \/ exists e, keyring Runs.w0 !! ("ns", "s") = Some e /\ is_expired e 0 = true)
  /\ exists v, stdout w' = stdout Runs.w0 +:+ v
     /\ cmd_get Runs.echo_fetch "ns" "s" false false false None None None 1000 1001 w'
        = (ROk tt, mkWorld (keyring w') (index_file w') (fetch_log w') (stdout w' +:+ v)
                     (stderr w')).
Proof.
  intros w'.
  assert (H : false = true \/ keyring Runs.w0 !! ("ns", "s") = None
    \/ exists e, keyring Runs.w0 !! ("ns", "s") = Some e /\ is_expired e 0 = true)
    by (right; left; reflexivity).
  assert (Hr : cmd_get Runs.echo_fetch "ns" "s" false false false None (Some "echo hello")
                 None 0 7 Runs.w0 = (ROk tt, w')) by reflexivity.
  split; [exact H|].
  apply (refresh_then_cached Runs.echo_fetch "ns" "s" false None (Some "echo hello") None 0 7
           Runs.w0 w' tt false None None None 1000 1001 H Hr).
  left. reflexivity.
Defined.

(** With [no_store], a get on a pair that had no record leaves it without
    one: a following get with no source override fails with [NoSource]
    and does not call the Source Resolver. *)
Theorem no_store_then_no_source fetch ns s fr ttl sh cmd t1 t2 (w : World)
    fr' nst' ttl' t1' t2' :
  keyring w !! (ns, s) = None ->
  let w1 := snd (cmd_get fetch ns s fr false true ttl sh cmd t1 t2 w) in
  cmd_get fetch ns s fr' false nst' ttl' None None t1' t2' w1 = (RErr NoSource, w1).
Proof.
  intros Hk w1.
  assert (Hk1 : keyring w1 !! (ns, s) = None).
  { subst w1. rewrite (proj1 (no_store_keeps fetch ns s fr false ttl sh cmd t1 t2 w)). exact Hk. }
  clearbody w1. unfold cmd_get. run_m. rewrite Hk1.
  cbn. destruct fr'; reflexivity.
Qed.

Lemma no_store_then_no_source_witness :
  keyring Runs.w0 !! ("ns", "s") = None
  /\ fst (cmd_get Runs.echo_fetch "ns" "s" false false false None None None 0 0
            (snd (cmd_get Runs.echo_fetch "ns" "s" false false true None (Some "echo hello-e2e")
                    None 0 0 Runs.w0))) = RErr NoSource.
Proof.
  assert (H : keyring Runs.w0 !! ("ns", "s") = None) by reflexivity.
  split; [exact H|].
  rewrite (no_store_then_no_source Runs.echo_fetch "ns" "s" false None (Some "echo hello-e2e")
             None 0 0 Runs.w0 false false None 0 0 H).
  reflexivity.
Defined.

(** An edit that changes only the source command sets [source_command] and
    [source_type] ([Sh] for [--source-sh], else [Cmd]) and keeps the
    value, [created_at], [ttl_seconds] and [expires_at] of the record. *)
Theorem edit_source_only ns s sh cmd (w w' : World) u old :
  keyring w !! (ns, s) = Some old ->
  cmd_edit ns s None false sh cmd w = (ROk u, w') ->
  exists r,
    keyring w' !! (ns, s) = Some r
    /\ value r = value old /\ created_at r = created_at old
    /\ ttl_seconds r = ttl_seconds old /\ expires_at r = expires_at old
    /\ (forall c, sh = Some c -> source_command r = Some c /\ source_type r = Some Sh)
    /\ (forall c, sh = None -> cmd = Some c -> source_command r = Some c /\ source_type r = Some Cmd).
Proof.
  intros Hold Hrun.
  destruct (edit_ok_source ns s None false sh cmd w w' u Hrun)
    as (old' & r & Hk & Hk' & Hv & Hc & Hsh & Hcmd & _ & Httl).
  rewrite Hold in Hk. inversion Hk; subst old'.
  destruct (Httl eq_refl eq_refl) as [Ht He].
  exists r. rewrite Hk', lookup_insert_eq. auto 10.
Qed.

Lemma edit_source_only_witness :
  let old := mkStoredSecret "v" 100 (Some "old") (Some Cmd) (Some 5) (Some (100 + Jiff.from_secs 5)) in
  let w := mkWorld (<[("ns", "s") := old]> ∅) (Index.mkSecretIndex []) [] "" "" in
  let out := cmd_edit "ns" "s" None false (Some "new") None w in
  keyring w !! ("ns", "s") = Some old /\ out = (ROk tt, snd out)
  /\ exists r, keyring (snd out) !! ("ns", "s") = Some r /\ expires_at r = expires_at old.
Proof.
  intros old w out.
  assert (Hk : keyring w !! ("ns", "s") = Some old) by reflexivity.
  assert (Hr : out = (ROk tt, snd out)) by reflexivity.
  split; [exact Hk|split; [exact Hr|]].
  destruct (edit_source_only "ns" "s" (Some "new") None w (snd out) tt old Hk Hr)
    as (r & H1 & _ & _ & _ & H5 & _).
  exists r. auto.
Defined.

(** After an edit that sets the source command, a forced refresh with no
    override fetches with the edited command and mode. *)
Theorem edit_then_refresh_uses_new_source fetch ns s ttl clr sh cmd (w w' : World) u
    nst ttl2 t1 t2 :
  cmd_edit ns s ttl clr sh cmd w = (ROk u, w') ->
  (forall c, sh = Some c ->
     fetch_log (snd (cmd_get fetch ns s true false nst ttl2 None None t1 t2 w'))
     = fetch_log w' ++ [(c, Sh)])
  /\ (forall c, sh = None -> cmd = Some c ->
     fetch_log (snd (cmd_get fetch ns s true false nst ttl2 None None t1 t2 w'))
     = fetch_log w' ++ [(c, Cmd)]).
Proof.
  intros Hrun.
  destruct (edit_ok_source ns s ttl clr sh cmd w w' u Hrun)
    as (old & r & _ & Hk' & _ & _ & Hsh & Hcmd & _ & _).
  assert (Hr : keyring w' !! (ns, s) = Some r) by (rewrite Hk'; apply lookup_insert_eq).
  split.
  - intros c Hc. destruct (Hsh c Hc) as [Hsc Hst].
    unfold cmd_get. run_m. rewrite Hr. cbn. rewrite Hsc, Hst. cbn.
    destruct (fetch c Sh); cbn; [|reflexivity].
    destruct (new _ _ _ _ _); cbn; [destruct nst; reflexivity|reflexivity|reflexivity].
  - intros c Hs Hc. destruct (Hcmd c Hs Hc) as [Hsc Hst].
    unfold cmd_get. run_m. rewrite Hr. cbn. rewrite Hsc, Hst. cbn.
    destruct (fetch c Cmd); cbn; [|reflexivity].
    destruct (new _ _ _ _ _); cbn; [destruct nst; reflexivity|reflexivity|reflexivity].
Qed.

Lemma edit_then_refresh_uses_new_source_witness :
  let old := mkStoredSecret "v" 0 (Some "old") (Some Cmd) None None in
  let w := mkWorld (<[("ns", "s") := old]> ∅) (Index.mkSecretIndex []) [] "" "" in
  let w' := snd (cmd_edit "ns" "s" None false (Some "new | cut") None w) in
  cmd_edit "ns" "s" None false (Some "new | cut") None w = (ROk tt, w')
  /\ fetch_log (snd (cmd_get Runs.echo_fetch "ns" "s" true false false None None None 0 0 w'))
     = fetch_log w' ++ [("new | cut", Sh)].
Proof.
  intros old w w'.
  assert (Hr : cmd_edit "ns" "s" None false (Some "new | cut") None w = (ROk tt, w'))
    by reflexivity.
  split; [exact Hr|].
  exact (proj1 (edit_then_refresh_uses_new_source Runs.echo_fetch "ns" "s" None false
                  (Some "new | cut") None w w' tt false None 0 0 Hr) "new | cut" eq_refl).
Defined.

End EngineFacts.
